(** * Conway's Game of Life on a torus, played by a grid of threads (GoL.c)

    A shallow embedding of [GoL.c] and the properties of its concurrency
    core: the neighbour count, the birth/death rule, the tiles of the
    threads, the barrier with its elected leader, the double buffer and
    the detection of extinction.

    Conventions of the embedding.
    - A C [int] is a [Z].  The program only ever adds, multiplies and
      divides quantities bounded by [2 * m * n]; signed overflow (undefined
      in C) is out of the model.  C's [/] and [%] truncate towards zero:
      they are [Z.quot] and [Z.rem].
    - The two blocks obtained from [malloc] are lists of cells; [wp] and
      [twp] are pointers, that is, names of blocks, and [Pointer_swap]
      exchanges the names, not the contents.
    - An access outside a block is undefined in C; here such a read gives
      [0] and such a write is dropped.  The theorems about tiles show that
      the accesses of a run are inside the blocks.
    - The threads are interleaved one step at a time.  A step is one
      statement that touches shared data; [live_count++] is two steps, the
      load and the store, since the source takes no lock around it.  The
      body of [Barrier] runs under [barrier_mutex] and is one step;
      [pthread_cond_wait] returns only after the broadcast. *)

From Stdlib Require Import Ascii String.
From stdpp Require Import base numbers list relations strings pretty.

Local Open Scope Z_scope.

(** ** Cells and blocks *)

Definition LIVE : Z := 1.
Definition DEAD : Z := 0.
Definition LIVE_IO : ascii := "X"%char.
Definition DEAD_IO : ascii := " "%char.

(** [w[k]] as an rvalue. *)
Definition load (w : list Z) (k : Z) : Z :=
  if decide (0 ≤ k) then default 0 (w !! Z.to_nat k) else 0.

(** [w[k] = v]. *)
Definition store (w : list Z) (k v : Z) : list Z :=
  if decide (0 ≤ k) then <[Z.to_nat k := v]> w else w.

(** A world in which every cell is [LIVE] or [DEAD], as [Read_world] and
    [Gen_world] produce it. *)
Definition is_world (m n : Z) (w : list Z) : Prop :=
  length w = Z.to_nat (m * n) ∧ Forall (λ v, v = LIVE ∨ v = DEAD) w.

(** ** Count_nbhrs *)

Definition Count_nbhrs (wp : list Z) (m n i j : Z) : Z :=
  let count :=
    foldl (λ count i1,
      foldl (λ count j1,
        let i2 := Z.rem (i1 + m) m in
        let j2 := Z.rem (j1 + n) n in
        count + load wp (i2 * n + j2))
      count (seqZ (j - 1) 3))
    0 (seqZ (i - 1) 3) in
  count - load wp (i * n + j).

(** The eight neighbours of [(i, j)] on the torus, as flat indices. *)
Definition offsets : list (Z * Z) :=
  [(-1, -1); (-1, 0); (-1, 1); (0, -1); (0, 1); (1, -1); (1, 0); (1, 1)].

Definition torus_nbhrs (m n i j : Z) : list Z :=
  (λ d, ((i + d.1) `mod` m) * n + ((j + d.2) `mod` n)) <$> offsets.

(** Number of live cells among the cells at the indices [ks]. *)
Definition live_among (w : list Z) (ks : list Z) : Z :=
  Z.of_nat (length (filter (λ k, load w k = LIVE) ks)).

(** The sum of the cells at the indices [ks]. *)
Definition sum_cells (w : list Z) (ks : list Z) : Z :=
  foldr (λ k acc, load w k + acc) 0 ks.

(** ** The rule of lines 279-285: the value written to [twp[i*n + j]] *)

Definition rule (count cell : Z) : Z :=
  if decide (count < 2 ∨ count > 3) then DEAD
  else if decide (count = 2) then cell
  else LIVE.

(** ** Globals that [main] sets once, and the tiles of [Play_life] *)

Section Globals.

Variables r s m n max_gens : Z.

Definition thread_count : Z := r * s.

Definition my_first_row (myrank : Z) : Z := (myrank ÷ s) * (m ÷ r).
Definition my_last_row (myrank : Z) : Z := my_first_row myrank + m ÷ r.
Definition my_first_col (myrank : Z) : Z := (Z.rem myrank s) * (n ÷ s).
Definition my_last_col (myrank : Z) : Z := my_first_col myrank + n ÷ s.

(** The cells visited by the two [for] loops of lines 271-272, in order. *)
Definition tile_cells (myrank : Z) : list (Z * Z) :=
  i ← seqZ (my_first_row myrank) (my_last_row myrank - my_first_row myrank);
  (λ j, (i, j)) <$>
    seqZ (my_first_col myrank) (my_last_col myrank - my_first_col myrank).

Definition in_tile (myrank i j : Z) : Prop :=
  my_first_row myrank ≤ i < my_last_row myrank ∧
  my_first_col myrank ≤ j < my_last_col myrank.

(** The rank whose tile holds [(i, j)], when some tile does. *)
Definition owner (i j : Z) : Z := (i ÷ (m ÷ r)) * s + j ÷ (n ÷ s).

End Globals.

(** ** Print_world *)

Definition newline : string := String "010"%char EmptyString.

(** One printed row: a character per cell of row [i]. *)
Definition row_text (wp : list Z) (n i : Z) : string :=
  string_of_list_ascii
    ((λ j, if decide (load wp (i * n + j) = LIVE) then LIVE_IO else DEAD_IO)
       <$> seqZ 0 n).

(** The text written by one call, rows first and the title last. *)
Definition Print_world (title : string) (wp : list Z) (m n : Z) : string :=
  foldr (λ i rest, row_text wp n i +:+ newline +:+ rest)
        (title +:+ newline +:+ newline) (seqZ 0 m).

(** ** The shared variables *)

(** The two blocks allocated by [main] (its locals [w1] and [w2]). *)
Inductive block := W1 | W2.

Record globals := Globals {
  w1 : list Z;
  w2 : list Z;
  wp : block;
  twp : block;
  barrier_count : Z;
  curr_gen : Z;
  live_count : Z;
  break_flag : Z;
  stdout : list string
}.

Definition deref (g : globals) (p : block) : list Z :=
  match p with W1 => w1 g | W2 => w2 g end.

(** [p[k] = v] for a pointer [p]. *)
Definition assign (g : globals) (p : block) (k v : Z) : globals :=
  Globals
    (match p with W1 => store (w1 g) k v | W2 => w1 g end)
    (match p with W1 => w2 g | W2 => store (w2 g) k v end)
    (wp g) (twp g) (barrier_count g)
    (curr_gen g) (live_count g) (break_flag g) (stdout g).

Definition set_barrier_count (v : Z) (g : globals) : globals :=
  Globals (w1 g) (w2 g) (wp g) (twp g) v
    (curr_gen g) (live_count g) (break_flag g) (stdout g).

Definition set_live_count (v : Z) (g : globals) : globals :=
  Globals (w1 g) (w2 g) (wp g) (twp g) (barrier_count g)
    (curr_gen g) v (break_flag g) (stdout g).

Definition set_break_flag (v : Z) (g : globals) : globals :=
  Globals (w1 g) (w2 g) (wp g) (twp g) (barrier_count g)
    (curr_gen g) (live_count g) v (stdout g).

(** ** Where a thread is in [Play_life] *)

Inductive pc :=
  | AtWhile                                   (* line 270, before the test *)
  | InTile (todo : list (Z * Z))              (* line 273, cells still to visit;
                                                 none left: line 292 *)
  | AtInc (c : Z * Z) (todo : list (Z * Z))   (* line 287, [c] written and live *)
  | Incr (tmp : Z) (c : Z * Z) (todo : list (Z * Z))
                                              (* line 287, [live_count] loaded *)
  | Waiting                                   (* line 350, in [pthread_cond_wait] *)
  | Released                                  (* line 293, back from [Barrier] *)
  | Done.                                     (* line 298 *)

Record state := State { shared : globals; threads : list pc }.

Definition set_pc (t : nat) (p : pc) (σ : state) : state :=
  State (shared σ) (<[t := p]> (threads σ)).

(** The effect of [pthread_cond_broadcast] on a thread. *)
Definition wake (p : pc) : pc :=
  match p with Waiting => Released | _ => p end.

(** [sprintf(title, "Generation %d", gen)]. *)
Definition title (gen : Z) : string := "Generation " +:+ pretty gen.

Section Program.

Variables r s m n max_gens : Z.

(** *** Pointer_swap *)

Definition Pointer_swap (g : globals) : globals :=
  let gen := curr_gen g + 1 in
  Globals (w1 g) (w2 g) (twp g) (wp g) (barrier_count g)
    gen (live_count g) (break_flag g)
    (stdout g ++ [Print_world (title gen) (deref g (twp g)) m n]).

(** *** Barrier *)

(** Lines 341-347: what the last thread to arrive does before the
    broadcast. *)
Definition Barrier_last (g : globals) : globals :=
  let g1 := if decide (live_count g = 0) then set_break_flag 1 g
            else Pointer_swap g in
  set_live_count 0 (set_barrier_count 0 g1).

Definition Barrier (t : nat) (σ : state) : state :=
  let g := set_barrier_count (barrier_count (shared σ) + 1) (shared σ) in
  if decide (barrier_count g = thread_count r s) then
    State (Barrier_last g) (wake <$> <[t := Released]> (threads σ))
  else
    State g (<[t := Waiting]> (threads σ)).

(** *** Play_life *)

(** Lines 273-285 for the cell [(i, j)]. *)
Definition Play_cell (i j : Z) (g : globals) : globals :=
  let count := Count_nbhrs (deref g (wp g)) m n i j in
  assign g (twp g) (i * n + j)
    (rule count (load (deref g (wp g)) (i * n + j))).

(** One step of the thread of rank [t]; [None] when it is blocked or has
    returned. *)
Definition thread_step (t : nat) (σ : state) : option state :=
  let g := shared σ in
  match threads σ !! t with
  | Some AtWhile =>
      if decide (curr_gen g < max_gens)
      then Some (set_pc t (InTile (tile_cells r s m n (Z.of_nat t))) σ)
      else Some (set_pc t Done σ)
  | Some (InTile ((i, j) :: todo)) =>
      let g' := Play_cell i j g in
      if decide (load (deref g' (twp g')) (i * n + j) = LIVE)
      then Some (State g' (<[t := AtInc (i, j) todo]> (threads σ)))
      else Some (State g' (<[t := InTile todo]> (threads σ)))
  | Some (AtInc c todo) =>
      Some (set_pc t (Incr (live_count g) c todo) σ)
  | Some (Incr tmp c todo) =>
      Some (State (set_live_count (tmp + 1) g) (<[t := InTile todo]> (threads σ)))
  | Some (InTile []) => Some (Barrier t σ)
  | Some Released =>
      if decide (break_flag g = 1)
      then Some (set_pc t Done σ)
      else Some (set_pc t AtWhile σ)
  | Some Waiting | Some Done | None => None
  end.

Definition step (σ σ' : state) : Prop := ∃ t, thread_step t σ = Some σ'.

(** *** main *)

(** The state in which [main] creates the threads: [gen0] is what
    [Read_world] or [Gen_world] stored in the first block, [junk] is the
    content of the second block, which [main] never initialises. *)
Definition init (gen0 junk : list Z) : state :=
  State
    (Globals gen0 junk W1 W2 0 0 0 0
       [newline; Print_world "Generation 0" gen0 m n])
    (replicate (Z.to_nat (thread_count r s)) AtWhile).

Definition is_done (p : pc) : bool :=
  match p with Done => true | _ => false end.

(** Every thread has returned: the [pthread_join] loop of [main] ends. *)
Definition finished (σ : state) : bool := forallb is_done (threads σ).

(** A scheduler is a list of ranks; a rank that cannot move is passed over. *)
Definition run_schedule (sched : list nat) (σ : state) : state :=
  foldl (λ σ t, default σ (thread_step t σ)) σ sched.

(** The scheduler that always runs the lowest rank that can move. *)
Definition first_step (σ : state) : option state :=
  list_find (λ o : option state, is_Some o)
    ((λ t, thread_step t σ) <$> seq 0 (length (threads σ))) ≫= snd.

Fixpoint run (fuel : nat) (σ : state) : state :=
  match fuel with
  | O => σ
  | S fuel => match first_step σ with Some σ' => run fuel σ' | None => σ end
  end.

Inductive outcome :=
  | Exit_usage (status : Z)                       (* [Usage]: [exit(0)] *)
  | Return (status : Z) (out : list string).      (* [return 0] *)

(** [main], from line 93 on.  The numeric arguments are the values that
    [strtol] gives for [argv[1..5]].  The result is [None] while some
    thread has not returned, in which case [main] is still in
    [pthread_join]. *)
Definition main (argc : Z) (gen0 junk : list Z) (sched : list nat)
  : option outcome :=
  if decide (argc ≠ 7) then Some (Exit_usage 0)
  else
    let σ := run_schedule sched (init gen0 junk) in
    if finished σ then Some (Return 0 (stdout (shared σ))) else None.

End Program.

(** ** The generations, computed by one thread after the other

    The same loops run to completion for rank 0, then rank 1, and so on:
    the sequential reading of one round of [Play_life], against which the
    interleaved runs are compared. *)

Section Reference.

Variables r s m n : Z.

(** The value that lines 279-285 store for the cell [c], read off the
    current world [C]. *)
Definition next_cell (C : list Z) (c : Z * Z) : Z :=
  rule (Count_nbhrs C m n c.1 c.2) (load C (c.1 * n + c.2)).

(** The cells of all the tiles, rank after rank. *)
Definition all_tiles : list (Z * Z) :=
  seqZ 0 (thread_count r s) ≫= tile_cells r s m n.

(** The block [N] once every thread has gone through its tile. *)
Definition next_world (C N : list Z) : list Z :=
  foldl (λ N c, store N (c.1 * n + c.2) (next_cell C c)) N all_tiles.

(** Some thread stores a live cell, so that [live_count] is not zero at
    the barrier. *)
Definition some_live (C : list Z) : bool :=
  existsb (λ c, bool_decide (next_cell C c = LIVE)) all_tiles.

(** The blocks behind [wp] and [twp] when [curr_gen] is [k]. *)
Fixpoint generation (gen0 junk : list Z) (k : nat) : list Z * list Z :=
  match k with
  | O => (gen0, junk)
  | S k => let CN := generation gen0 junk k in
           (next_world CN.1 CN.2, CN.1)
  end.

(** What has been printed when [curr_gen] is [k]. *)
Definition printed (gen0 junk : list Z) (k : nat) : list string :=
  newline ::
  ((λ i, Print_world (title (Z.of_nat i)) (generation gen0 junk i).1 m n)
     <$> seq 0 (S k)).

(** The last generation reached from generation [k] in at most [fuel]
    rounds. *)
Fixpoint play (gen0 junk : list Z) (fuel k : nat) : nat :=
  match fuel with
  | O => k
  | S fuel => if some_live (generation gen0 junk k).1
              then play gen0 junk fuel (S k) else k
  end.

(** The classical step on the whole torus, without tiles. *)
Definition life_step (C : list Z) : list Z :=
  (λ k, next_cell C (k ÷ n, Z.rem k n)) <$> seqZ 0 (m * n).

End Reference.

(** Number of live cells in a block. *)
Definition count_live (w : list Z) : Z :=
  Z.of_nat (length (filter (λ v, v = LIVE) w)).

(** ** Bookkeeping on thread positions *)

Section Positions.

Variables r s m n : Z.

(** Cells of the tile of [t] not yet stored in this round. *)
Definition unwritten (t : nat) (p : pc) : list (Z * Z) :=
  match p with
  | InTile todo | AtInc _ todo | Incr _ _ todo => todo
  | Waiting => []
  | AtWhile | Released | Done => tile_cells r s m n (Z.of_nat t)
  end.

(** Cells of the tile of [t] for which line 286-288 is not yet over. *)
Definition uncounted (t : nat) (p : pc) : list (Z * Z) :=
  match p with
  | InTile todo => todo
  | AtInc c todo | Incr _ c todo => c :: todo
  | Waiting => []
  | AtWhile | Released | Done => tile_cells r s m n (Z.of_nat t)
  end.

End Positions.

(** The thread is inside the body of the [while] loop. *)
Definition inside (p : pc) : Prop :=
  match p with
  | InTile _ | AtInc _ _ | Incr _ _ _ | Waiting => True
  | AtWhile | Released | Done => False
  end.

Definition is_waiting (p : pc) : bool :=
  match p with Waiting => true | _ => false end.

Definition is_incr (p : pc) : bool :=
  match p with Incr _ _ _ => true | _ => false end.

Definition num_waiting (ths : list pc) : Z :=
  Z.of_nat (length (filter (λ p, is_waiting p = true) ths)).

(** At most one thread is between the load and the store of
    [live_count++]. *)
Definition quiet (σ : state) : Prop :=
  (length (filter (λ p, is_incr p = true) (threads σ)) ≤ 1)%nat.


(** ** Runs and what holds along them *)

Section Runs.

Variables r s m n max_gens : Z.
Variables gen0 junk : list Z.

(** The states of the runs that [main] starts. *)
Definition reachable (σ : state) : Prop :=
  rtc (step r s m n max_gens) (init r s m n gen0 junk) σ.

(** A step taken while no other thread is inside [live_count++]. *)
Definition quiet_step (σ σ' : state) : Prop :=
  quiet σ ∧ quiet σ' ∧ step r s m n max_gens σ σ'.

Definition quiet_reachable (σ : state) : Prop :=
  rtc quiet_step (init r s m n gen0 junk) σ.

(** The world of the current generation and the block it was computed
    over, according to the sequential reading. *)
Definition cur (g : globals) : list Z :=
  (generation r s m n gen0 junk (Z.to_nat (curr_gen g))).1.

Definition old (g : globals) : list Z :=
  (generation r s m n gen0 junk (Z.to_nat (curr_gen g))).2.

(** The three phases of a run. *)
Inductive phase (g : globals) (ths : list pc) : Prop :=
  | Running :
      break_flag g = 0 → curr_gen g < max_gens →
      Forall (λ p, p ≠ Done) ths → phase g ths
  | Capped :
      break_flag g = 0 → max_gens ≤ curr_gen g →
      Forall (λ p, p = AtWhile ∨ p = Released ∨ p = Done) ths → phase g ths
  | Extinct :
      break_flag g = 1 → curr_gen g < max_gens →
      Forall (λ p, p = Released ∨ p = Done) ths → phase g ths.

(** Some thread has stored a live cell and finished counting it. *)
Definition counted_live (σ : state) : Prop :=
  ∃ t p c, threads σ !! t = Some p ∧
           c ∈ tile_cells r s m n (Z.of_nat t) ∧
           (c ∉ uncounted r s m n t p) ∧
           next_cell m n (cur (shared σ)) c = LIVE.

Record invariant (σ : state) : Prop := {
  (* control *)
  inv_threads : length (threads σ) = Z.to_nat (thread_count r s);
  inv_arrived : barrier_count (shared σ) = num_waiting (threads σ);
  inv_gen : 0 ≤ curr_gen (shared σ) ∧
            (curr_gen (shared σ) ≤ max_gens ∨ curr_gen (shared σ) = 0);
  inv_phase : phase (shared σ) (threads σ);
  inv_suffix : ∀ t p, threads σ !! t = Some p →
      uncounted r s m n t p `suffix_of` tile_cells r s m n (Z.of_nat t);
  (* memory *)
  inv_ptr : wp (shared σ) ≠ twp (shared σ);
  inv_len1 : length (w1 (shared σ)) = Z.to_nat (m * n);
  inv_len2 : length (w2 (shared σ)) = Z.to_nat (m * n);
  inv_cur : deref (shared σ) (wp (shared σ)) = cur (shared σ);
  inv_frame : ∀ k,
      (∀ w c, 0 ≤ w < thread_count r s → c ∈ tile_cells r s m n w →
              k ≠ c.1 * n + c.2) →
      load (deref (shared σ) (twp (shared σ))) k = load (old (shared σ)) k;
  inv_written : ∀ t p c, threads σ !! t = Some p →
      c ∈ tile_cells r s m n (Z.of_nat t) → c ∉ unwritten r s m n t p →
      load (deref (shared σ) (twp (shared σ))) (c.1 * n + c.2) =
      next_cell m n (cur (shared σ)) c;
  inv_stdout : stdout (shared σ) =
      printed r s m n gen0 junk (Z.to_nat (curr_gen (shared σ)));
  inv_alive : ∀ i, (i < Z.to_nat (curr_gen (shared σ)))%nat →
      some_live r s m n (generation r s m n gen0 junk i).1 = true;
  inv_extinct : break_flag (shared σ) = 1 →
      some_live r s m n (cur (shared σ)) = false;
  (* the counter *)
  inv_count_nonneg : 0 ≤ live_count (shared σ);
  inv_count_pos : 1 ≤ live_count (shared σ) ↔ counted_live σ;
  inv_tmp : ∀ t tmp c todo, threads σ !! t = Some (Incr tmp c todo) →
      0 ≤ tmp ∧ (1 ≤ tmp → counted_live σ);
  inv_pending : ∀ t p c todo, threads σ !! t = Some p →
      (p = AtInc c todo ∨ ∃ tmp, p = Incr tmp c todo) →
      next_cell m n (cur (shared σ)) c = LIVE
}.

(** The step of a thread, case by case. *)
Inductive thread_steps (t : nat) (σ : state) : state → Prop :=
  | step_enter :
      threads σ !! t = Some AtWhile →
      curr_gen (shared σ) < max_gens →
      thread_steps t σ
        (set_pc t (InTile (tile_cells r s m n (Z.of_nat t))) σ)
  | step_cap :
      threads σ !! t = Some AtWhile →
      max_gens ≤ curr_gen (shared σ) →
      thread_steps t σ (set_pc t Done σ)
  | step_dead i j todo :
      threads σ !! t = Some (InTile ((i, j) :: todo)) →
      load (deref (Play_cell m n i j (shared σ)) (twp (shared σ)))
           (i * n + j) ≠ LIVE →
      thread_steps t σ
        (State (Play_cell m n i j (shared σ))
               (<[t := InTile todo]> (threads σ)))
  | step_live i j todo :
      threads σ !! t = Some (InTile ((i, j) :: todo)) →
      load (deref (Play_cell m n i j (shared σ)) (twp (shared σ)))
           (i * n + j) = LIVE →
      thread_steps t σ
        (State (Play_cell m n i j (shared σ))
               (<[t := AtInc (i, j) todo]> (threads σ)))
  | step_load c todo :
      threads σ !! t = Some (AtInc c todo) →
      thread_steps t σ (set_pc t (Incr (live_count (shared σ)) c todo) σ)
  | step_store tmp c todo :
      threads σ !! t = Some (Incr tmp c todo) →
      thread_steps t σ
        (State (set_live_count (tmp + 1) (shared σ))
               (<[t := InTile todo]> (threads σ)))
  | step_wait :
      threads σ !! t = Some (InTile []) →
      barrier_count (shared σ) + 1 ≠ thread_count r s →
      thread_steps t σ
        (State (set_barrier_count (barrier_count (shared σ) + 1) (shared σ))
               (<[t := Waiting]> (threads σ)))
  | step_extinct :
      threads σ !! t = Some (InTile []) →
      barrier_count (shared σ) + 1 = thread_count r s →
      live_count (shared σ) = 0 →
      thread_steps t σ
        (State (Globals (w1 (shared σ)) (w2 (shared σ)) (wp (shared σ))
                  (twp (shared σ)) 0 (curr_gen (shared σ)) 0 1
                  (stdout (shared σ)))
               (wake <$> <[t := Released]> (threads σ)))
  | step_swap :
      threads σ !! t = Some (InTile []) →
      barrier_count (shared σ) + 1 = thread_count r s →
      live_count (shared σ) ≠ 0 →
      thread_steps t σ
        (State (Globals (w1 (shared σ)) (w2 (shared σ)) (twp (shared σ))
                  (wp (shared σ)) 0 (curr_gen (shared σ) + 1) 0
                  (break_flag (shared σ))
                  (stdout (shared σ) ++
                   [Print_world (title (curr_gen (shared σ) + 1))
                      (deref (shared σ) (twp (shared σ))) m n]))
               (wake <$> <[t := Released]> (threads σ)))
  | step_exit :
      threads σ !! t = Some Released →
      break_flag (shared σ) = 1 →
      thread_steps t σ (set_pc t Done σ)
  | step_loop :
      threads σ !! t = Some Released →
      break_flag (shared σ) ≠ 1 →
      thread_steps t σ (set_pc t AtWhile σ).

End Runs.


(* ================================================================== *)
(** * Properties *)

(** ** Blocks *)

Lemma load_store_eq w k v :
  0 ≤ k < Z.of_nat (length w) → load (store w k v) k = v.
Proof.
  intros Hk. unfold load, store. rewrite !decide_True by lia.
  by rewrite list_lookup_insert_eq by lia.
Qed.

Lemma load_store_ne w k k' v : k ≠ k' → load (store w k v) k' = load w k'.
Proof.
  intros Hne. unfold load, store.
  destruct (decide (0 ≤ k')); [|done]. destruct (decide (0 ≤ k)); [|done].
  by rewrite list_lookup_insert_ne by lia.
Qed.

Lemma length_store w k v : length (store w k v) = length w.
Proof. unfold store. destruct (decide _); [apply length_insert | done]. Qed.

Lemma load_world m n w k : is_world m n w → load w k = LIVE ∨ load w k = DEAD.
Proof.
  intros [_ Hall]. unfold load. destruct (decide _); [|by right].
  destruct (w !! Z.to_nat k) as [v|] eqn:Hv; [|by right].
  simpl. eapply Forall_lookup_1 in Hall; eauto.
Qed.

(** Row-major indexing is injective on cells whose column is in range. *)
Lemma index_inj n i j i' j' :
  0 ≤ j < n → 0 ≤ j' < n → i * n + j = i' * n + j' → i = i' ∧ j = j'.
Proof. intros. assert (i = i') by nia. subst. lia. Qed.

Lemma index_range m n i j : 0 ≤ i < m → 0 ≤ j < n → 0 ≤ i * n + j < m * n.
Proof. intros. nia. Qed.

(** ** Tiles *)

Section Tiles.

Variables r s m n : Z.

Lemma elem_of_tile_cells w i j :
  (i, j) ∈ tile_cells r s m n w ↔ in_tile r s m n w i j.
Proof.
  unfold tile_cells, in_tile. rewrite list_elem_of_bind. split.
  - intros (i' & Hj & Hi). apply list_elem_of_fmap in Hj as (j' & Heq & Hj).
    simplify_eq. apply elem_of_seqZ in Hi, Hj. lia.
  - intros [Hi Hj]. exists i. split.
    + apply list_elem_of_fmap. exists j. split; [done|]. apply elem_of_seqZ. lia.
    + apply elem_of_seqZ. lia.
Qed.

Lemma NoDup_tile_cells w : NoDup (tile_cells r s m n w).
Proof.
  unfold tile_cells. apply NoDup_bind.
  - intros i1 i2 c _ _ H1 H2.
    apply list_elem_of_fmap in H1 as (? & -> & _).
    apply list_elem_of_fmap in H2 as (? & ? & _). by simplify_eq.
  - intros i _. apply NoDup_fmap_2; [|apply NoDup_seqZ]. by intros ?? [=].
  - apply NoDup_seqZ.
Qed.

Hypothesis r_pos : 0 < r.
Hypothesis s_pos : 0 < s.

(** The accesses of a thread stay inside the world. *)
Lemma in_tile_range w i j :
  0 ≤ w < thread_count r s → in_tile r s m n w i j → 0 ≤ i < m ∧ 0 ≤ j < n.
Proof.
  unfold thread_count, in_tile, my_last_row, my_last_col, my_first_row, my_first_col.
  intros Hw [Hi Hj].
  assert (0 ≤ w ÷ s < r).
  { rewrite Z.quot_div_nonneg by lia. split; [apply Z.div_pos; lia|].
    apply Z.div_lt_upper_bound; lia. }
  assert (0 ≤ Z.rem w s < s) by (apply Z.rem_bound_pos; lia).
  assert (0 < m ÷ r) by nia. assert (0 < n ÷ s) by nia.
  assert (0 < m) by (destruct (decide (0 < m)); [done|];
    assert (m ÷ r ≤ 0) by (apply Z.quot_le_upper_bound; lia); lia).
  assert (0 < n) by (destruct (decide (0 < n)); [done|];
    assert (n ÷ s ≤ 0) by (apply Z.quot_le_upper_bound; lia); lia).
  assert (r * (m ÷ r) ≤ m) by (apply Z.mul_quot_le; lia).
  assert (s * (n ÷ s) ≤ n) by (apply Z.mul_quot_le; lia).
  nia.
Qed.

Lemma in_tile_owner w i j :
  0 ≤ w < thread_count r s → in_tile r s m n w i j → w = owner r s m n i j.
Proof.
  unfold thread_count, in_tile, my_last_row, my_last_col, my_first_row,
    my_first_col, owner.
  intros Hw [Hi Hj].
  assert (0 ≤ w ÷ s < r).
  { rewrite Z.quot_div_nonneg by lia. split; [apply Z.div_pos; lia|].
    apply Z.div_lt_upper_bound; lia. }
  assert (0 ≤ Z.rem w s < s) by (apply Z.rem_bound_pos; lia).
  assert (0 < m ÷ r) by nia. assert (0 < n ÷ s) by nia.
  assert (i ÷ (m ÷ r) = w ÷ s) as ->.
  { rewrite (Z.quot_div_nonneg i) by nia. symmetry.
    apply Z.div_unique with (i - (w ÷ s) * (m ÷ r)); lia. }
  assert (j ÷ (n ÷ s) = Z.rem w s) as ->.
  { rewrite (Z.quot_div_nonneg j) by nia. symmetry.
    apply Z.div_unique with (j - (Z.rem w s) * (n ÷ s)); lia. }
  pose proof (Z.quot_rem' w s). lia.
Qed.

Lemma owner_in_tile i j :
  0 ≤ i < r * (m ÷ r) → 0 ≤ j < s * (n ÷ s) →
  0 ≤ owner r s m n i j < thread_count r s ∧
  in_tile r s m n (owner r s m n i j) i j.
Proof.
  unfold thread_count, in_tile, my_last_row, my_last_col, my_first_row,
    my_first_col, owner.
  intros Hi Hj.
  assert (0 < m ÷ r) by nia. assert (0 < n ÷ s) by nia.
  set (a := m ÷ r) in *. set (b := n ÷ s) in *.
  rewrite (Z.quot_div_nonneg i), (Z.quot_div_nonneg j) by lia.
  assert (0 ≤ i `div` a < r).
  { split; [apply Z.div_pos; lia|]. apply Z.div_lt_upper_bound; lia. }
  assert (0 ≤ j `div` b < s).
  { split; [apply Z.div_pos; lia|]. apply Z.div_lt_upper_bound; lia. }
  assert ((i `div` a * s + j `div` b) ÷ s = i `div` a) as ->.
  { rewrite Z.quot_div_nonneg by nia. symmetry.
    apply Z.div_unique with (j `div` b); lia. }
  assert (Z.rem (i `div` a * s + j `div` b) s = j `div` b) as ->.
  { rewrite Z.rem_mod_nonneg by nia. symmetry.
    apply Z.mod_unique with (i `div` a); lia. }
  pose proof (Z.div_mod i a). pose proof (Z.mod_pos_bound i a).
  pose proof (Z.div_mod j b). pose proof (Z.mod_pos_bound j b).
  split; [nia|]. split; nia.
Qed.

End Tiles.

(** C6 -- The tile of a worker is the product of the row interval
    [[(w / s) * (m / r), (w / s) * (m / r) + m / r)] and the column interval
    [[(w % s) * (n / s), (w % s) * (n / s) + n / s)]; when the thread grid
    has positive sides [r] and [s] that divide [m] and [n], every tile
    lies in the world and every cell of the world lies in the tile of
    exactly one worker. *)
Theorem tile_partition r s m n :
  (∀ w i j,
     (i, j) ∈ tile_cells r s m n w ↔
       ((w ÷ s) * (m ÷ r) ≤ i < (w ÷ s) * (m ÷ r) + m ÷ r ∧
        (Z.rem w s) * (n ÷ s) ≤ j < (Z.rem w s) * (n ÷ s) + n ÷ s)) ∧
  (∀ w, NoDup (tile_cells r s m n w)) ∧
  (0 < r → 0 < s → Z.rem m r = 0 → Z.rem n s = 0 →
   (∀ w i j, 0 ≤ w < thread_count r s → (i, j) ∈ tile_cells r s m n w →
      0 ≤ i < m ∧ 0 ≤ j < n) ∧
   (∀ i j, 0 ≤ i < m → 0 ≤ j < n →
      ∃ w, 0 ≤ w < thread_count r s ∧ (i, j) ∈ tile_cells r s m n w ∧
           ∀ w', 0 ≤ w' < thread_count r s →
                 (i, j) ∈ tile_cells r s m n w' → w' = w)).
Proof.
  split_and!.
  - intros w i j. by rewrite elem_of_tile_cells.
  - apply NoDup_tile_cells.
  - intros Hr Hs Hm Hn. split.
    + intros w i j Hw Hin. apply elem_of_tile_cells in Hin.
      exact (in_tile_range r s m n Hr Hs w i j Hw Hin).
    + intros i j Hi Hj.
      assert (r * (m ÷ r) = m) by (pose proof (Z.quot_rem' m r); lia).
      assert (s * (n ÷ s) = n) by (pose proof (Z.quot_rem' n s); lia).
      destruct (owner_in_tile r s m n Hr Hs i j) as [Hw Hin]; [lia..|].
      exists (owner r s m n i j). split_and!; [lia..| |].
      * by apply elem_of_tile_cells.
      * intros w' Hw' Hin'. apply elem_of_tile_cells in Hin'.
        exact (in_tile_owner r s m n Hs w' i j Hw' Hin').
Qed.

Lemma tile_partition_witness :
  (3, 1) ∈ tile_cells 2 2 4 4 2 ∧
  ∃ w, 0 ≤ w < thread_count 2 2 ∧ (3, 1) ∈ tile_cells 2 2 4 4 w ∧
       ∀ w', 0 ≤ w' < thread_count 2 2 → (3, 1) ∈ tile_cells 2 2 4 4 w' → w' = w.
Proof.
  destruct (tile_partition 2 2 4 4) as (Hcells & _ & Hpart).
  split.
  - apply Hcells. vm_compute. intuition congruence.
  - destruct Hpart as [_ Hex]; [lia | lia | reflexivity | reflexivity |].
    apply Hex; lia.
Defined.

(** ** Count_nbhrs *)

Lemma seqZ_3 a : seqZ a 3 = [a; a + 1; a + 2].
Proof.
  rewrite seqZ_cons by lia. rewrite seqZ_cons by lia. rewrite seqZ_cons by lia.
  rewrite seqZ_nil by lia. repeat f_equal; lia.
Qed.

Lemma rem_wrap m i1 : 0 < m → - m ≤ i1 → Z.rem (i1 + m) m = i1 `mod` m.
Proof.
  intros Hm Hi. rewrite Z.rem_mod_nonneg by lia.
  replace (i1 + m) with (i1 + 1 * m) by lia. by rewrite Z.mod_add by lia.
Qed.

Lemma mod_pred m i :
  0 ≤ i < m → (i + -1) `mod` m = if decide (i = 0) then m - 1 else i - 1.
Proof.
  intros Hi. destruct (decide (i = 0)) as [->|].
  - symmetry. apply Z.mod_unique with (-1); lia.
  - apply Z.mod_small. lia.
Qed.

Lemma mod_succ m i :
  0 ≤ i < m → (i + 1) `mod` m = if decide (i = m - 1) then 0 else i + 1.
Proof.
  intros Hi. destruct (decide (i = m - 1)) as [->|].
  - symmetry. apply Z.mod_unique with 1; lia.
  - apply Z.mod_small. lia.
Qed.

(** The count is the sum of the cells at the eight wrapped positions,
    whatever the cells hold. *)
Lemma Count_nbhrs_sum wp m n i j :
  0 < m → 0 < n → 0 ≤ i < m → 0 ≤ j < n →
  Count_nbhrs wp m n i j = sum_cells wp (torus_nbhrs m n i j).
Proof.
  intros Hm Hn Hi Hj. unfold Count_nbhrs, torus_nbhrs, offsets, sum_cells.
  rewrite !seqZ_3. simpl.
  rewrite !rem_wrap by lia.
  replace (i - 1) with (i + -1) by lia. replace (j - 1) with (j + -1) by lia.
  replace (i + -1 + 1) with i by lia. replace (j + -1 + 1) with j by lia.
  replace (i + -1 + 2) with (i + 1) by lia. replace (j + -1 + 2) with (j + 1) by lia.
  rewrite !Z.add_0_r. rewrite (Z.mod_small i m), (Z.mod_small j n) by lia. lia.
Qed.

Lemma live_among_sum m n w ks : is_world m n w → live_among w ks = sum_cells w ks.
Proof.
  intros Hw. unfold live_among. induction ks as [|k ks IH]; [done|].
  simpl. rewrite <- IH. rewrite filter_cons.
  destruct (load_world m n w k Hw) as [Hk|Hk]; rewrite Hk.
  - rewrite decide_True by done. simpl length. unfold LIVE. lia.
  - rewrite decide_False by done. unfold DEAD. lia.
Qed.

Lemma torus_nbhrs_range m n i j :
  0 < m → 0 < n → Forall (λ k, 0 ≤ k < m * n) (torus_nbhrs m n i j).
Proof.
  intros Hm Hn. unfold torus_nbhrs. apply Forall_fmap, Forall_forall.
  intros [d1 d2] _. simpl. apply index_range; apply Z.mod_pos_bound; lia.
Qed.

Lemma torus_nbhrs_distinct m n i j :
  3 ≤ m → 3 ≤ n → 0 ≤ i < m → 0 ≤ j < n →
  NoDup (torus_nbhrs m n i j) ∧ i * n + j ∉ torus_nbhrs m n i j.
Proof.
  intros Hm Hn Hi Hj. unfold torus_nbhrs, offsets. simpl.
  rewrite !Z.add_0_r. rewrite (Z.mod_small i m), (Z.mod_small j n) by lia.
  rewrite !mod_pred, !mod_succ by lia.
  assert (∀ a b a' b', 0 ≤ b < n → 0 ≤ b' < n → (a, b) ≠ (a', b') →
            a * n + b ≠ a' * n + b') as Hne.
  { intros a b a' b' ?? Hab Heq. apply index_inj in Heq; [|done..].
    destruct Heq; by subst. }
  split.
  - repeat (apply NoDup_cons; split); [..|apply NoDup_nil_2];
      rewrite ?elem_of_cons, elem_of_nil;
      repeat case_decide; intros Hor; decompose [or] Hor; try done;
      match goal with H : _ * _ + _ = _ * _ + _ |- _ =>
        apply index_inj in H; lia end.
  - rewrite ?elem_of_cons, elem_of_nil.
    repeat case_decide; intros Hor; decompose [or] Hor; try done;
      match goal with H : _ * _ + _ = _ * _ + _ |- _ =>
        apply index_inj in H; lia end.
Qed.

(** C2 -- In a world of at least three rows and three columns,
    [Count_nbhrs] returns the number of live cells among the eight
    neighbours of [(i, j)] on the torus: the eight wrapped positions are
    cells of the world, pairwise distinct, and none is [(i, j)] itself. *)
Theorem Count_nbhrs_correct wp m n i j :
  3 ≤ m → 3 ≤ n → is_world m n wp → 0 ≤ i < m → 0 ≤ j < n →
  Count_nbhrs wp m n i j = live_among wp (torus_nbhrs m n i j) ∧
  length (torus_nbhrs m n i j) = 8%nat ∧
  NoDup (torus_nbhrs m n i j) ∧
  (i * n + j ∉ torus_nbhrs m n i j) ∧
  Forall (λ k, 0 ≤ k < m * n) (torus_nbhrs m n i j).
Proof.
  intros Hm Hn Hw Hi Hj. split_and!.
  - rewrite (live_among_sum m n) by done. apply Count_nbhrs_sum; lia.
  - done.
  - by apply torus_nbhrs_distinct.
  - by apply torus_nbhrs_distinct.
  - apply torus_nbhrs_range; lia.
Qed.

Lemma Count_nbhrs_correct_witness :
  Count_nbhrs [1;1;1; 1;1;1; 1;1;1] 3 3 0 0 = 8 ∧
  NoDup (torus_nbhrs 3 3 0 0) ∧ 0 ∉ torus_nbhrs 3 3 0 0.
Proof.
  destruct (Count_nbhrs_correct [1;1;1; 1;1;1; 1;1;1] 3 3 0 0)
    as (Hcount & _ & Hnodup & Hself & _).
  - lia.
  - lia.
  - split; [reflexivity|]. repeat constructor.
  - lia.
  - lia.
  - split; [|split]; [|exact Hnodup|exact Hself].
    rewrite Hcount. vm_compute. reflexivity.
Defined.

(** ** The barrier *)

(** C3 -- When the thread that enters [Barrier] is the last of the
    [thread_count] to arrive, it does exactly one of two things before the
    broadcast.  If [live_count] is zero it sets [break_flag] and leaves the
    pointers, the generation counter and the output alone.  Otherwise it
    exchanges [wp] and [twp], adds one to [curr_gen], prints the new
    generation and leaves [break_flag] alone.  In both cases
    [barrier_count] and [live_count] are zero afterwards, the blocks are
    untouched, and every waiting thread is released. *)
Theorem Barrier_last_arrival r s m n max_gens t σ σ' :
  threads σ !! t = Some (InTile []) →
  barrier_count (shared σ) + 1 = thread_count r s →
  thread_step r s m n max_gens t σ = Some σ' →
  let g := shared σ in
  let g' := shared σ' in
  (live_count g = 0 →
     break_flag g' = 1 ∧ wp g' = wp g ∧ twp g' = twp g ∧
     curr_gen g' = curr_gen g ∧ stdout g' = stdout g) ∧
  (live_count g ≠ 0 →
     break_flag g' = break_flag g ∧ wp g' = twp g ∧ twp g' = wp g ∧
     curr_gen g' = curr_gen g + 1 ∧
     stdout g' =
       stdout g ++
       [Print_world (title (curr_gen g + 1)) (deref g (twp g)) m n]) ∧
  barrier_count g' = 0 ∧ live_count g' = 0 ∧
  w1 g' = w1 g ∧ w2 g' = w2 g ∧
  threads σ' = wake <$> <[t := Released]> (threads σ).
Proof.
  intros Ht Hlast Hstep. unfold thread_step in Hstep. rewrite Ht in Hstep.
  injection Hstep as <-. unfold Barrier. simpl.
  rewrite decide_True by done. unfold Barrier_last. simpl.
  destruct (decide (live_count (shared σ) = 0)) as [Hz|Hnz]; simpl.
  - split_and!; done.
  - split_and!; done.
Qed.

(** ** The steps of a thread *)

Section Steps.

Variables r s m n max_gens : Z.

Lemma thread_step_cases t σ σ' :
  thread_step r s m n max_gens t σ = Some σ' →
  thread_steps r s m n max_gens t σ σ'.
Proof.
  unfold thread_step. intros Hstep.
  destruct (threads σ !! t) as [p|] eqn:Hp; [|done].
  destruct p as [|[|[i j] todo]|c todo|tmp c todo| | |]; try done.
  - case_decide; simplify_eq; [by apply step_enter|apply step_cap; [done|lia]].
  - unfold Barrier in Hstep. simpl in Hstep. case_decide; simplify_eq.
    + unfold Barrier_last. simpl.
      destruct (decide (live_count (shared σ) = 0)); simpl.
      * by apply step_extinct.
      * by apply step_swap.
    + by apply step_wait.
  - case_decide; simplify_eq.
    + by apply step_live.
    + by apply step_dead.
  - simplify_eq. by eapply step_load.
  - simplify_eq. by eapply step_store.
  - case_decide; simplify_eq; [by apply step_exit|by apply step_loop].
Qed.

End Steps.

(** ** Lists of threads *)

Lemma num_waiting_insert ths t p p' :
  ths !! t = Some p →
  num_waiting (<[t := p']> ths) =
  num_waiting ths - (if is_waiting p then 1 else 0)
                  + (if is_waiting p' then 1 else 0).
Proof.
  intros Ht. unfold num_waiting.
  rewrite insert_take_drop by (by eapply lookup_lt_Some).
  rewrite <- (take_drop_middle ths t p Ht) at 3.
  rewrite !filter_app, !filter_cons, !length_app.
  destruct (is_waiting p), (is_waiting p'); simpl;
    repeat case_decide; simpl; try done; lia.
Qed.

Lemma filter_full {A} (P : A → Prop) `{∀ x, Decision (P x)} (l : list A) :
  length (filter P l) = length l → Forall P l.
Proof.
  induction l as [|x l IH]; [done|]. rewrite filter_cons.
  pose proof (length_filter P l). case_decide; simpl; intros Hlen.
  - constructor; [done|]. apply IH. lia.
  - lia.
Qed.

(** When all but one thread wait, every other thread waits. *)
Lemma others_wait ths t p t' p' :
  num_waiting ths + 1 = Z.of_nat (length ths) →
  ths !! t = Some p → is_waiting p = false →
  ths !! t' = Some p' → t' ≠ t → p' = Waiting.
Proof.
  unfold num_waiting. intros Hnum Ht Hp Ht' Hne.
  rewrite <- (take_drop_middle ths t p Ht) in Hnum, Ht'.
  rewrite filter_app, filter_cons, !length_app in Hnum.
  rewrite decide_False in Hnum by (by rewrite Hp). simpl in Hnum.
  pose proof (length_filter (λ p, is_waiting p = true) (take t ths)).
  pose proof (length_filter (λ p, is_waiting p = true) (drop (S t) ths)).
  assert (Forall (λ p, is_waiting p = true) (take t ths)) as H1
    by (apply (filter_full (λ p, is_waiting p = true)); lia).
  assert (Forall (λ p, is_waiting p = true) (drop (S t) ths)) as H2
    by (apply (filter_full (λ p, is_waiting p = true)); lia).
  assert (is_waiting p' = true) as Hw; [|by destruct p'].
  apply lookup_app_Some in Ht' as [Ht'|[Hlen Ht']].
  - eapply Forall_lookup_1 in H1; eauto.
  - destruct (t' - length (take t ths))%nat as [|k] eqn:Hk.
    + apply lookup_lt_Some in Ht. rewrite length_take in Hk, Hlen. lia.
    + simpl in Ht'. eapply Forall_lookup_1 in H2; eauto.
Qed.

(** The threads after the broadcast of the last arrival. *)
Lemma broadcast_all ths t :
  num_waiting ths + 1 = Z.of_nat (length ths) →
  ths !! t = Some (InTile []) →
  wake <$> <[t := Released]> ths = replicate (length ths) Released.
Proof.
  intros Hnum Ht. apply list_eq_same_length with (length ths).
  - by rewrite length_replicate.
  - by rewrite length_fmap, length_insert.
  - intros t' p1 p2 Hlt H1 H2.
    apply lookup_replicate in H2 as [-> _].
    rewrite list_lookup_fmap in H1. apply fmap_Some in H1 as (p & Hp & ->).
    apply list_lookup_insert_Some in Hp as [(_ & <- & _)|[Hne Hp]]; [done|].
    by rewrite (others_wait ths t (InTile []) t' p).
Qed.

Lemma num_waiting_replicate k p :
  is_waiting p = false → num_waiting (replicate k p) = 0.
Proof.
  intros Hp. unfold num_waiting. induction k as [|k IH]; [done|].
  simpl. rewrite filter_cons, decide_False by (by rewrite Hp). done.
Qed.

(** ** Blocks, continued *)

Lemma load_ext w w' :
  length w = length w' →
  (∀ k, 0 ≤ k < Z.of_nat (length w) → load w k = load w' k) → w = w'.
Proof.
  intros Hlen Hload. apply list_eq_same_length with (length w); [done..|].
  intros i x y Hi Hx Hy. specialize (Hload (Z.of_nat i)).
  unfold load in Hload. rewrite !decide_True, Nat2Z.id, Hx, Hy in Hload by lia.
  apply Hload. lia.
Qed.

(** ** The sequential reading of a round *)

Section Worlds.

Variables r s m n : Z.
Hypothesis r_pos : 0 < r.
Hypothesis s_pos : 0 < s.

Lemma elem_of_all_tiles c :
  c ∈ all_tiles r s m n ↔
  ∃ w, 0 ≤ w < thread_count r s ∧ c ∈ tile_cells r s m n w.
Proof.
  unfold all_tiles. rewrite list_elem_of_bind. split.
  - intros (w & Hc & Hw). apply elem_of_seqZ in Hw. exists w. split; [lia|done].
  - intros (w & Hw & Hc). exists w. split; [done|]. apply elem_of_seqZ. lia.
Qed.

Lemma tile_cell_range w c :
  0 ≤ w < thread_count r s → c ∈ tile_cells r s m n w →
  0 ≤ c.1 < m ∧ 0 ≤ c.2 < n.
Proof.
  destruct c as [i j]. intros Hw Hc. apply elem_of_tile_cells in Hc.
  exact (in_tile_range r s m n r_pos s_pos w i j Hw Hc).
Qed.

Lemma tile_cell_index w c :
  0 ≤ w < thread_count r s → c ∈ tile_cells r s m n w →
  0 ≤ c.1 * n + c.2 < m * n.
Proof.
  intros Hw Hc. destruct (tile_cell_range w c Hw Hc). by apply index_range.
Qed.

Section Stores.

Variable C : list Z.

Let write (N : list Z) (c : Z * Z) : list Z :=
  store N (c.1 * n + c.2) (next_cell m n C c).

Lemma length_stores N cells : length (foldl write N cells) = length N.
Proof.
  revert N. induction cells as [|c cells IH]; intros N; [done|].
  simpl. rewrite IH. apply length_store.
Qed.

Lemma load_stores_other N cells k :
  0 ≤ k → (∀ c, c ∈ cells → k ≠ c.1 * n + c.2) →
  load (foldl write N cells) k = load N k.
Proof.
  intros Hk. revert N. induction cells as [|c cells IH]; intros N Hne; [done|].
  simpl. rewrite IH by (intros; apply Hne; by right).
  apply load_store_ne. intros Heq. by eapply Hne; [left|].
Qed.

Lemma load_stores_written N cells c :
  (∀ c, c ∈ cells → 0 ≤ c.2 < n) →
  c ∈ cells → 0 ≤ c.1 * n + c.2 < Z.of_nat (length N) →
  load (foldl write N cells) (c.1 * n + c.2) = next_cell m n C c.
Proof.
  induction cells as [|c' cells IH] using rev_ind; intros Hcol Hc Hidx.
  { by apply elem_of_nil in Hc. }
  rewrite foldl_snoc. unfold write at 1.
  destruct (decide (c'.1 * n + c'.2 = c.1 * n + c.2)) as [Heq|Hne].
  - apply index_inj in Heq as [H1 H2];
      [|apply Hcol, elem_of_app; right; apply list_elem_of_here|by apply Hcol].
    assert (c' = c) as -> by (destruct c, c'; simpl in *; congruence).
    apply load_store_eq. by rewrite length_stores.
  - rewrite load_store_ne by done.
    apply elem_of_app in Hc as [Hc|Hc%list_elem_of_singleton]; [|by subst].
    apply IH; [|done..]. intros c0 Hc0. apply Hcol, elem_of_app. by left.
Qed.

End Stores.

Lemma length_next_world C N : length (next_world r s m n C N) = length N.
Proof. apply length_stores. Qed.

Lemma load_next_world_other C N k :
  0 ≤ k →
  (∀ w c, 0 ≤ w < thread_count r s → c ∈ tile_cells r s m n w →
          k ≠ c.1 * n + c.2) →
  load (next_world r s m n C N) k = load N k.
Proof.
  intros Hk Hne. apply load_stores_other; [done|].
  intros c (w & Hw & Hc)%elem_of_all_tiles. eauto.
Qed.

Lemma load_next_world_written C N w c :
  length N = Z.to_nat (m * n) →
  0 ≤ w < thread_count r s → c ∈ tile_cells r s m n w →
  load (next_world r s m n C N) (c.1 * n + c.2) = next_cell m n C c.
Proof.
  intros Hlen Hw Hc. apply load_stores_written.
  - intros c' (w' & Hw' & Hc')%elem_of_all_tiles.
    by destruct (tile_cell_range w' c').
  - apply elem_of_all_tiles. eauto.
  - pose proof (tile_cell_index w c Hw Hc). lia.
Qed.

Lemma length_generation gen0 junk k :
  length gen0 = Z.to_nat (m * n) → length junk = Z.to_nat (m * n) →
  length (generation r s m n gen0 junk k).1 = Z.to_nat (m * n) ∧
  length (generation r s m n gen0 junk k).2 = Z.to_nat (m * n).
Proof.
  intros H0 H1. induction k as [|k [IH1 IH2]]; [done|].
  simpl. by rewrite length_next_world.
Qed.

End Worlds.

(** ** A last arrival, evaluated *)

Lemma Barrier_last_arrival_witness :
  let σ := State (Globals [0; 0; 0; 0] [0; 1; 1; 0] W1 W2 0 0 2 0 [])
                 [InTile []] in
  ∃ σ', thread_step 1 1 2 2 3 0 σ = Some σ' ∧
        wp (shared σ') = W2 ∧ twp (shared σ') = W1 ∧
        curr_gen (shared σ') = 1 ∧ barrier_count (shared σ') = 0 ∧
        live_count (shared σ') = 0 ∧ threads σ' = [Released].
Proof.
  intros σ. eexists. split; [reflexivity|].
  destruct (Barrier_last_arrival 1 1 2 2 3 0 σ _ eq_refl eq_refl eq_refl)
    as (_ & Hswap & Hbc & Hlc & _ & _ & Hths).
  destruct Hswap as (_ & Hwp & Htwp & Hgen & _); [discriminate|].
  split_and!; [exact Hwp|exact Htwp|exact Hgen|exact Hbc|exact Hlc|exact Hths].
Defined.
